(** * Leaderboard cache: fetch, persist, query

    A shallow embedding of [main.py]: the remote fetcher
    ([fetch_leaderboards]), the SQLite store ([save_to_db],
    [get_metadata]), the query layer ([get_players], [get_countries]) and
    one iteration of the scheduler loop ([scheduled_task]).

    Conventions of the embedding.
    - Text is a [string] of bytes, as SQLite stores it (UTF-8).  SQLite's
      [UPPER], [LOWER] and [LIKE] fold case on the ASCII letters only and
      leave every other byte alone; that is modelled exactly.  Python's
      [str.lower] agrees with the ASCII folding on ASCII text, which is the
      text the statements below instantiate it at.
    - Python integers are [Z]; [None] and SQL [NULL] are [None].
    - A Python [dict] with string keys is a [gmap string _]; the table
      [players] is the list of its rows in insertion (rowid) order.
    - An exception raised inside [save_to_db] leaves the connection without
      a commit, so the store is unchanged: the function returns [None].
    - A reply is taken decoded, as the JSON object the remote API documents;
      a body that does not decode makes [response.json()] raise out of
      [fetch_leaderboards], and that path is not part of the embedding.
    - The fields of an entry have the types the table declares; SQLite's
      conversions between storage classes are not modelled. *)

From Stdlib Require Import ZArith Ascii String List Bool Lia Sorting.Sorted
  Sorting.Permutation.
From stdpp Require Import gmap strings list fin_maps.

Local Open Scope string_scope.
Local Open Scope Z_scope.

(** ** Text *)

Module Text.

(** ASCII case folding, the one SQLite applies in [UPPER]/[LOWER]/[LIKE]. *)
Definition upper_ascii (c : ascii) : ascii :=
  let n := N_of_ascii c in
  if ((97 <=? n) && (n <=? 122))%N then ascii_of_N (n - 32) else c.

Definition lower_ascii (c : ascii) : ascii :=
  let n := N_of_ascii c in
  if ((65 <=? n) && (n <=? 90))%N then ascii_of_N (n + 32) else c.

Fixpoint map_string (f : ascii -> ascii) (s : string) : string :=
  match s with
  | EmptyString => EmptyString
  | String c s' => String (f c) (map_string f s')
  end.

(** SQL [UPPER(x)] and [LOWER(x)]. *)
Definition sql_upper : string -> string := map_string upper_ascii.
Definition sql_lower : string -> string := map_string lower_ascii.

(** Python [s.lower()] on ASCII text. *)
Definition py_lower : string -> string := map_string lower_ascii.

(** Python [s.startswith(p)]. *)
Fixpoint startswith (p s : string) : bool :=
  match p, s with
  | EmptyString, _ => true
  | String c p', String d s' => if ascii_dec c d then startswith p' s' else false
  | String _ _, EmptyString => false
  end.

(** SQL [str LIKE pat] without an [ESCAPE] clause: [%] matches any run of
    characters, [_] exactly one, every other character itself up to ASCII
    case. *)
Fixpoint like (pat str : string) : bool :=
  match pat with
  | EmptyString => match str with EmptyString => true | _ => false end
  | String c pat' =>
      if ascii_dec c "%" then
        (fix star (s : string) : bool :=
           like pat' s ||
           match s with
           | EmptyString => false
           | String _ s' => star s'
           end) str
      else if ascii_dec c "_" then
        match str with
        | EmptyString => false
        | String _ s' => like pat' s'
        end
      else
        match str with
        | EmptyString => false
        | String d s' =>
            if ascii_dec (lower_ascii c) (lower_ascii d) then like pat' s'
            else false
        end
  end.

(** Python's comparison of strings, [a <= b]. *)
Definition str_le (a b : string) : bool := String.leb a b.

End Text.

(** ** A stable sort

    [ORDER BY rank] and Python's [sorted(..., key=...)] are both modelled by
    a stable insertion sort on a key: any two stable sorts agree. *)

Section StableSort.
Context {A : Type} (le : A -> A -> bool).

Fixpoint insert_sorted (x : A) (l : list A) : list A :=
  match l with
  | [] => [x]
  | y :: l' => if le x y then x :: l else y :: insert_sorted x l'
  end.

Definition sort_by (l : list A) : list A := foldr insert_sorted [] l.
End StableSort.

(** ** The store *)

(** A row of the table [players] (the autoincremented [id] is never read). *)
Record player_row := {
  region : string;
  rank : Z;
  name : string;
  team_id : option Z;
  team_tag : option string;
  sponsor : option string;
  country : option string
}.

(** What [get_players] selects: [rank, name, team_id, team_tag, sponsor,
    country]. *)
Record player_out := {
  o_rank : Z;
  o_name : string;
  o_team_id : option Z;
  o_team_tag : option string;
  o_sponsor : option string;
  o_country : option string
}.

Definition select_cols (r : player_row) : player_out :=
  {| o_rank := rank r; o_name := name r; o_team_id := team_id r;
     o_team_tag := team_tag r; o_sponsor := sponsor r;
     o_country := country r |}.

(** The database: table [players] and table [metadata] (key, value). *)
Record database := {
  players : list player_row;
  metadata : gmap string Z
}.

Definition REGIONS : list string := ["americas"; "europe"; "se_asia"; "china"].

(** ** SQL conditions: three-valued, a row is kept when the condition is
    true. *)

Definition sql_and (a b : option bool) : option bool :=
  match a, b with
  | Some false, _ | _, Some false => Some false
  | Some true, Some true => Some true
  | _, _ => None
  end.

Definition sql_or (a b : option bool) : option bool :=
  match a, b with
  | Some true, _ | _, Some true => Some true
  | Some false, Some false => Some false
  | _, _ => None
  end.

Definition sql_is_true (c : option bool) : bool :=
  match c with Some true => true | _ => false end.

(** [x IN (v1, ..., vn)] for a non-null list of values. *)
Definition sql_in (x : option string) (vs : list string) : option bool :=
  match x with
  | None => None
  | Some s => Some (existsb (String.eqb s) vs)
  end.

(** ** Query engine *)

(** Python truthiness of the optional arguments. *)
Definition truthy_int (x : option Z) : bool :=
  match x with Some n => negb (n =? 0) | None => false end.

Definition truthy_list {A} (x : option (list A)) : bool :=
  match x with Some (_ :: _) => true | _ => false end.

Definition truthy_str (x : option string) : bool :=
  match x with Some (String _ _) => true | _ => false end.

Definition str_is (x : option string) (s : string) : bool :=
  match x with Some t => String.eqb t s | None => false end.

(** The clauses [get_players] appends to its [WHERE], in order. *)
Definition region_clause (reg : string) (r : player_row) : option bool :=
  Some (String.eqb (region r) reg).

Definition rank_clause (rank_from rank_to : Z) (r : player_row) : option bool :=
  Some ((rank_from <=? rank r) && (rank r <=? rank_to)).

Definition country_clause (countries : list string) (r : player_row)
  : option bool :=
  sql_in (Text.sql_upper <$> country r) countries.

Definition team_yes_clause (r : player_row) : option bool :=
  sql_and (Some (bool_decide (team_tag r ≠ None)))
          (match team_tag r with
           | None => None
           | Some t => Some (negb (String.eqb t ""))
           end).

Definition team_no_clause (r : player_row) : option bool :=
  sql_or (Some (bool_decide (team_tag r = None)))
         (match team_tag r with
          | None => None
          | Some t => Some (String.eqb t "")
          end).

Definition name_clause (name_player : string) (r : player_row) : option bool :=
  Some (Text.like (String.append (Text.py_lower name_player) "%")
                  (Text.sql_lower (name r))).

Definition where_clauses
    (reg : string) (rank_from rank_to : option Z)
    (countries : option (list string)) (team name_player : option string)
  : list (player_row -> option bool) :=
  ([region_clause reg]
   ++ (if truthy_int rank_from && truthy_int rank_to
       then [rank_clause (default 0 rank_from) (default 0 rank_to)] else [])
   ++ (if truthy_list countries
       then [country_clause (default [] countries)] else [])
   ++ (if str_is team "yes" then [team_yes_clause]
       else if str_is team "no" then [team_no_clause] else [])
   ++ (if truthy_str name_player
       then [name_clause (default "" name_player)] else []))%list.

Definition satisfies (cs : list (player_row -> option bool)) (r : player_row)
  : bool :=
  forallb (fun c => sql_is_true (c r)) cs.

Definition rank_le (a b : player_row) : bool := rank a <=? rank b.

Definition get_players
    (db : database) (reg : string) (rank_from rank_to : option Z)
    (countries : option (list string)) (team name_player : option string)
  : list player_out :=
  select_cols <$>
    sort_by rank_le
      (List.filter
         (satisfies (where_clauses reg rank_from rank_to countries team
                       name_player))
         (players db)).

Definition get_metadata (db : database) : gmap string Z := metadata db.

(** ** Remote fetcher *)

(** One entry of the [leaderboard] list of the remote API, a JSON object.
    A field is [None] when [p.get(key)] is [None] (the key is absent or
    null); for [p_name], [None] is the absent key, which [p.get("name", "")]
    reads as the empty string. *)
Record player := {
  p_rank : option Z;
  p_name : option string;
  p_team_id : option Z;
  p_team_tag : option string;
  p_sponsor : option string;
  p_country : option string
}.

(** [player["rank"] = idx] *)
Definition set_rank (idx : Z) (p : player) : player :=
  {| p_rank := Some idx; p_name := p_name p; p_team_id := p_team_id p;
     p_team_tag := p_team_tag p; p_sponsor := p_sponsor p;
     p_country := p_country p |}.

(** The decoded body of one reply, [response.json()]. *)
Record api_data := {
  d_leaderboard : option (list player);
  d_time_posted : option Z;
  d_next_scheduled_post_time : option Z
}.

(** What [asyncio.gather(..., return_exceptions=True)] holds for a region:
    an exception, or the reply. *)
Inductive response :=
| Failed
| Replied (data : api_data).

(** The dictionary [fetch_leaderboards] returns: one key per region that
    replied, and the two time stamps. *)
Record snapshot := {
  boards : gmap string (list player);
  time_posted : Z;
  next_scheduled_post_time : Z
}.

(** [for idx, player in enumerate(leaderboard, start=idx): player["rank"] = idx] *)
Fixpoint assign_ranks (idx : Z) (leaderboard : list player) : list player :=
  match leaderboard with
  | [] => []
  | p :: rest => set_rank idx p :: assign_ranks (idx + 1) rest
  end.

(** The body of the loop over [zip(REGIONS, responses)]; the accumulator is
    [(database, latest_time_posted, latest_next_update)]. *)
Definition fetch_step
    (acc : gmap string (list player) * Z * Z) (rr : string * response)
  : gmap string (list player) * Z * Z :=
  let '(database, latest_time_posted, latest_next_update) := acc in
  match rr.2 with
  | Failed => acc
  | Replied data =>
      let leaderboard := assign_ranks 1 (default [] (d_leaderboard data)) in
      let tp := default 0 (d_time_posted data) in
      let np := default 0 (d_next_scheduled_post_time data) in
      (<[rr.1 := leaderboard]> database,
       Z.max latest_time_posted tp,
       Z.max latest_next_update np)
  end.

(** [net reg] is the outcome of the request for region [reg]. *)
Definition fetch_leaderboards (net : string -> response) : option snapshot :=
  let responses := net <$> REGIONS in
  let '(database, latest_time_posted, latest_next_update) :=
    foldl fetch_step (∅, 0, 0) (zip REGIONS responses) in
  if decide (database = ∅) then None
  else Some {| boards := database;
               time_posted := latest_time_posted;
               next_scheduled_post_time := latest_next_update |}.

(** ** Storage *)

(** One [INSERT INTO players ... VALUES (?, ?, ?, ?, ?, ?, ?)] with the tuple
    built from [p]: [rank] is [NOT NULL], [(region, rank)] is [UNIQUE];
    a violated constraint raises. *)
Definition insert_player (reg : string) (p : player) (tbl : list player_row)
  : option (list player_row) :=
  match p_rank p with
  | None => None
  | Some k =>
      if existsb (fun r => String.eqb (region r) reg && (rank r =? k)) tbl
      then None
      else Some (tbl ++ [{| region := reg; rank := k;
                            name := default "" (p_name p);
                            team_id := p_team_id p;
                            team_tag := p_team_tag p;
                            sponsor := p_sponsor p;
                            country := p_country p |}])%list
  end.

(** [executemany]: the rows are inserted one after the other. *)
Fixpoint executemany_insert (reg : string) (ps : list player)
    (tbl : list player_row) : option (list player_row) :=
  match ps with
  | [] => Some tbl
  | p :: ps' =>
      match insert_player reg p tbl with
      | None => None
      | Some tbl' => executemany_insert reg ps' tbl'
      end
  end.

(** [DELETE FROM players WHERE region = ?] *)
Definition delete_region (reg : string) (tbl : list player_row)
  : list player_row :=
  List.filter (fun r => negb (String.eqb (region r) reg)) tbl.

(** The body of [for region in REGIONS] in [save_to_db]. *)
Definition save_region (data : snapshot) (reg : string)
    (tbl : list player_row) : option (list player_row) :=
  let ps := default [] (boards data !! reg) in
  match ps with
  | [] => Some tbl
  | _ :: _ => executemany_insert reg ps (delete_region reg tbl)
  end.

Fixpoint save_regions (data : snapshot) (regs : list string)
    (tbl : list player_row) : option (list player_row) :=
  match regs with
  | [] => Some tbl
  | reg :: regs' =>
      match save_region data reg tbl with
      | None => None
      | Some tbl' => save_regions data regs' tbl'
      end
  end.

(** [save_to_db]: every region of [REGIONS], then the two [INSERT OR REPLACE]
    into [metadata], then the commit. *)
Definition save_to_db (data : snapshot) (db : database) : option database :=
  match save_regions data REGIONS (players db) with
  | None => None
  | Some tbl =>
      Some {| players := tbl;
              metadata :=
                <["next_scheduled_post_time" := next_scheduled_post_time data]>
                  (<["time_posted" := time_posted data]> (metadata db)) |}
  end.

(** ** Distinct countries *)

(** [SELECT DISTINCT]: the first occurrence of each value, in scan order. *)
Fixpoint distinct (l : list string) : list string :=
  match l with
  | [] => []
  | x :: l' => x :: List.filter (fun y => negb (String.eqb y x)) (distinct l')
  end.

(** [SELECT DISTINCT UPPER(country) FROM players WHERE region = ? AND country
    IS NOT NULL] *)
Definition select_codes (db : database) (reg : string) : list string :=
  distinct
    (omap (fun r => if String.eqb (region r) reg
                    then Text.sql_upper <$> country r else None)
          (players db)).

Definition by_name (a b : string * string) : bool := Text.str_le a.2 b.2.

Section Countries.
(** The table [iso3166.countries_by_alpha2], as the map from a code to the
    [name] of its country. *)
Variable countries_by_alpha2 : string -> option string.

Definition country_name (code : string) : string :=
  match countries_by_alpha2 code with
  | Some n => n
  | None => "Unknown"
  end.

(** The result is a Python [dict]: its items in iteration order. *)
Definition get_countries (db : database) (reg : string)
  : list (string * string) :=
  let codes := select_codes db reg in
  let countries_full := (fun code => (code, country_name code)) <$> codes in
  sort_by by_name countries_full.
End Countries.

(** ** Scheduler *)

(** One iteration of [while True] in [scheduled_task]: the store after it and
    the number of seconds passed to [asyncio.sleep].  [now] is the value of
    [int(time.time())] read after the data was saved. *)
Definition scheduled_cycle (net : string -> response) (now : Z)
    (db : database) : database * Z :=
  match fetch_leaderboards net with
  | Some data =>
      match save_to_db data db with
      | Some db' =>
          let next_update := next_scheduled_post_time data in
          if next_update >? now then (db', next_update - now)
          else (db', 3600)
      | None => (db, 60)
      end
  | None => (db, 300)
  end.

(** The loop, run over the successive environments it meets; it returns the
    store and the sleeps in order. *)
Fixpoint scheduled_task (env : list ((string -> response) * Z))
    (db : database) : database * list Z :=
  match env with
  | [] => (db, [])
  | (net, now) :: env' =>
      let '(db', s) := scheduled_cycle net now db in
      let '(db'', ss) := scheduled_task env' db' in
      (db'', s :: ss)
  end.

(** ** Vocabulary of the statements *)




(** Membership of a stored code in a list of codes, case-insensitively: the
    comparison the description of the [countries] filter asks for. *)
Definition country_in_nocase (countries : list string) (r : player_row)
  : bool :=
  match country r with
  | None => false
  | Some c =>
      existsb (fun m => String.eqb (Text.sql_upper m) (Text.sql_upper c))
              countries
  end.

(** A team tag that is present and not empty. *)
Definition has_team (r : player_row) : bool :=
  match team_tag r with
  | Some (String _ _) => true
  | _ => false
  end.

(** ** Sample data

    Three rows of the region [europe]. *)
Definition sample_row (rk : Z) (n : string) (tag cc : option string)
  : player_row :=
  {| region := "europe"; rank := rk; name := n; team_id := None;
     team_tag := tag; sponsor := None; country := cc |}.

Definition sample_db : database :=
  {| players := [sample_row 1 "John" (Some "") (Some "US");
                 sample_row 2 "joanna" (Some "ABC") (Some "se");
                 sample_row 3 "Bjorn" (Some "XYZ") (Some "US")];
     metadata := ∅ |}.

(** The replies of the regions that succeeded, in the order of [REGIONS]. *)
Definition reply_of (r : response) : option api_data :=
  match r with
  | Failed => None
  | Replied data => Some data
  end.

Definition replies (net : string -> response) : list api_data :=
  omap (fun reg => reply_of (net reg)) REGIONS.

(** [data.get("time_posted", 0)] and [data.get("next_scheduled_post_time", 0)] *)
Definition posted (data : api_data) : Z := default 0 (d_time_posted data).
Definition next_post (data : api_data) : Z :=
  default 0 (d_next_scheduled_post_time data).

(** The rows a region that replied contributes to the snapshot. *)
Definition ranked (data : api_data) : list player :=
  assign_ranks 1 (default [] (d_leaderboard data)).


(** The table row that holds the entry [p] of region [reg]. *)
Definition stored_as (reg : string) (p : player) (r : player_row) : Prop :=
  region r = reg /\ p_rank p = Some (rank r)
  /\ name r = default "" (p_name p) /\ team_id r = p_team_id p
  /\ team_tag r = p_team_tag p /\ sponsor r = p_sponsor p
  /\ country r = p_country p.

(** The selected row [o] shows the entry [p]. *)
Definition shown_as (p : player) (o : player_out) : Prop :=
  p_rank p = Some (o_rank o)
  /\ o_name o = default "" (p_name p) /\ o_team_id o = p_team_id p
  /\ o_team_tag o = p_team_tag p /\ o_sponsor o = p_sponsor p
  /\ o_country o = p_country p.

(** The entries come with ascending ranks. *)
Definition ranks_ascending (rows : list player) : Prop :=
  StronglySorted
    (fun p q => forall a b, p_rank p = Some a -> p_rank q = Some b -> a <= b)
    rows.

(** What the loop of [fetch_leaderboards] does to its dictionary for one
    region. *)
Definition board_step (net : string -> response)
    (database : gmap string (list player)) (reg : string)
  : gmap string (list player) :=
  match net reg with
  | Failed => database
  | Replied data => <[reg := ranked data]> database
  end.

(** Sample replies: one region answers with two entries, the others fail. *)
Definition sample_entry (n : string) : player :=
  {| p_rank := None; p_name := Some n; p_team_id := None;
     p_team_tag := None; p_sponsor := None; p_country := None |}.

Definition sample_reply : api_data :=
  {| d_leaderboard := Some [sample_entry "first"; sample_entry "second"];
     d_time_posted := Some 1000;
     d_next_scheduled_post_time := Some 4600 |}.

Definition sample_net (reg : string) : response :=
  if String.eqb reg "europe" then Replied sample_reply else Failed.

(** The rows of one region. *)
Definition in_region (reg : string) (r : player_row) : bool :=
  String.eqb (region r) reg.

(** The snapshot fetched from [sample_net], and the store after saving it
    over [sample_db]. *)
Definition sample_snapshot : snapshot :=
  {| boards := {[ "europe" := ranked sample_reply ]};
     time_posted := 1000;
     next_scheduled_post_time := 4600 |}.

Definition sample_db_saved : database :=
  {| players :=
       [ {| region := "europe"; rank := 1; name := "first"; team_id := None;
            team_tag := None; sponsor := None; country := None |};
         {| region := "europe"; rank := 2; name := "second"; team_id := None;
            team_tag := None; sponsor := None; country := None |} ];
     metadata :=
       <["next_scheduled_post_time" := 4600]> (<["time_posted" := 1000]> ∅) |}.

(** A cycle in which the only region that answers sends an empty list. *)
Definition empty_reply : api_data :=
  {| d_leaderboard := Some [];
     d_time_posted := Some 2000;
     d_next_scheduled_post_time := Some 5600 |}.

Definition empty_net (reg : string) : response :=
  if String.eqb reg "europe" then Replied empty_reply else Failed.

Definition empty_snapshot : snapshot :=
  {| boards := {[ "europe" := [] ]};
     time_posted := 2000;
     next_scheduled_post_time := 5600 |}.

Definition sample_db_kept : database :=
  {| players := players sample_db;
     metadata :=
       <["next_scheduled_post_time" := 5600]> (<["time_posted" := 2000]> ∅) |}.

(** A fragment of the reference table, and rows whose codes differ in case,
    one of them unknown to the table. *)
Definition sample_names (code : string) : option string :=
  if String.eqb code "US" then Some "United States of America"
  else if String.eqb code "SE" then Some "Sweden"
  else None.

Definition sample_codes_db : database :=
  {| players := [sample_row 1 "a" None (Some "us");
                 sample_row 2 "b" None (Some "zz");
                 sample_row 3 "c" None (Some "SE");
                 sample_row 4 "d" None None;
                 sample_row 5 "e" None (Some "US")];
     metadata := ∅ |}.

(** ** The request handler *)

(** Python [s.split(",")]: the pieces between the commas; the empty string
    splits into one empty piece. *)
Fixpoint split_commas (s : string) : list string :=
  match s with
  | EmptyString => [EmptyString]
  | String c s' =>
      if ascii_dec c "," then EmptyString :: split_commas s'
      else match split_commas s' with
           | [] => [String c EmptyString]
           | w :: ws => String c w :: ws
           end
  end.

(** [countries.split(",") if countries else []] *)
Definition selected_countries_of (countries : option string) : list string :=
  match countries with
  | Some (String c s) => split_commas (String c s)
  | _ => []
  end.

(** The context handed to the template [main/main.html]. *)
Record page_context := {
  c_region : string;
  c_data : list player_out;
  c_last_update : option Z;
  c_next_update : option Z;
  c_rank_from : option Z;
  c_rank_to : option Z;
  c_team : option string;
  c_name_player : option string;
  c_countries : list (string * string);
  c_selected_countries : list string
}.

Inductive http_response :=
| Redirect (url : string)
| Page (context : page_context).

(** [default_region]: the route [/]. *)
Definition default_region : http_response := Redirect "/europe".

Section Handler.
Variable countries_by_alpha2 : string -> option string.

(** [read_root]: the route [/{region}]. *)
Definition read_root (db : database) (reg : string)
    (rank_from rank_to : option Z) (countries team name_player : option string)
  : http_response :=
  if bool_decide (reg ∈ REGIONS) then
    let selected_countries := selected_countries_of countries in
    let shown :=
      get_players db reg rank_from rank_to
        (match selected_countries with
         | [] => None
         | _ :: _ => Some selected_countries
         end)
        team name_player in
    let meta := get_metadata db in
    let countries_list := get_countries countries_by_alpha2 db reg in
    Page {| c_region := reg;
            c_data := shown;
            c_last_update := meta !! "time_posted";
            c_next_update := meta !! "next_scheduled_post_time";
            c_rank_from := rank_from;
            c_rank_to := rank_to;
            c_team := team;
            c_name_player := name_player;
            c_countries := countries_list;
            c_selected_countries := selected_countries |}
  else Redirect "/europe".
End Handler.

(** ** More vocabulary of the statements *)

(** The clauses of [where_clauses] after the one on the region. *)
Definition filter_clauses
    (rank_from rank_to : option Z)
    (countries : option (list string)) (team name_player : option string)
  : list (player_row -> option bool) :=
  ((if truthy_int rank_from && truthy_int rank_to
    then [rank_clause (default 0 rank_from) (default 0 rank_to)] else [])
   ++ (if truthy_list countries
       then [country_clause (default [] countries)] else [])
   ++ (if str_is team "yes" then [team_yes_clause]
       else if str_is team "no" then [team_no_clause] else [])
   ++ (if truthy_str name_player
       then [name_clause (default "" name_player)] else []))%list.

(** Predicates on a selected row. *)
Definition o_has_team (o : player_out) : bool :=
  match o_team_tag o with
  | Some (String _ _) => true
  | _ => false
  end.

Definition o_country_in_nocase (countries : list string) (o : player_out)
  : bool :=
  match o_country o with
  | None => false
  | Some c =>
      existsb (fun m => String.eqb (Text.sql_upper m) (Text.sql_upper c))
              countries
  end.


(** The entries have a rank each, and no rank twice: what the constraints
    [NOT NULL] and [UNIQUE(region, rank)] ask of the rows of one region. *)
Definition well_ranked (rows : list player) : Prop :=
  Forall (fun p => is_Some (p_rank p)) rows /\ NoDup (p_rank <$> rows).

(** No two rows of the table share [(region, rank)]. *)
Definition unique_ranks (tbl : list player_row) : Prop :=
  NoDup ((fun r => (region r, rank r)) <$> tbl).

(** Two entries that differ at most in the rank they came with. *)
Definition same_but_rank (p q : player) : Prop :=
  p_name p = p_name q /\ p_team_id p = p_team_id q
  /\ p_team_tag p = p_team_tag q /\ p_sponsor p = p_sponsor q
  /\ p_country p = p_country q.

(** [",".join(l)] *)
Definition join_commas (l : list string) : string := String.concat "," l.

(** No comma in the string. *)
Fixpoint comma_free (s : string) : bool :=
  match s with
  | EmptyString => true
  | String c s' => if ascii_dec c "," then false else comma_free s'
  end.

(** Entries that arrive with a rank of their own. *)
Definition sample_entry_ranked (k : Z) (n : string) : player :=
  {| p_rank := Some k; p_name := Some n; p_team_id := None;
     p_team_tag := None; p_sponsor := None; p_country := None |}.

(** An environment in which every request fails. *)
Definition dead_net (reg : string) : response := Failed.

(** * Facts about the embedding *)

(** ** The stable sort *)

Section SortFacts.
Context {A : Type} (le : A -> A -> bool).

Let R (a b : A) : Prop := le a b = true.

Hypothesis le_total : forall a b, le a b = true \/ le b a = true.

Lemma insert_sorted_perm x l : insert_sorted le x l ≡ₚ x :: l.
Proof.
  induction l as [|y l IH]; simpl; [done|].
  destruct (le x y); [done|].
  rewrite IH. apply perm_swap.
Qed.

Lemma sort_by_perm l : sort_by le l ≡ₚ l.
Proof.
  induction l as [|x l IH]; simpl; [done|].
  unfold sort_by in *. simpl. rewrite insert_sorted_perm. by rewrite IH.
Qed.

Lemma insert_sorted_hd x y l :
  R y x -> HdRel R y l -> HdRel R y (insert_sorted le x l).
Proof.
  intros Hyx Hl. destruct l as [|z l]; simpl.
  - by constructor.
  - destruct (le x z); constructor; [done|].
    by inversion Hl.
Qed.

Lemma insert_sorted_Sorted x l :
  Sorted R l -> Sorted R (insert_sorted le x l).
Proof.
  induction 1 as [|y l Hs IH Hhd]; simpl.
  - repeat constructor.
  - destruct (le x y) eqn:E.
    + constructor; [by constructor|by constructor].
    + constructor; [done|].
      apply insert_sorted_hd; [|done].
      destruct (le_total x y) as [H|H]; [congruence|done].
Qed.

Lemma sort_by_Sorted l : Sorted R (sort_by le l).
Proof.
  induction l as [|x l IH]; [constructor|].
  by apply insert_sorted_Sorted.
Qed.

Lemma insert_sorted_least x l :
  Forall (R x) l -> insert_sorted le x l = x :: l.
Proof.
  destruct 1 as [|y l Hy _]; simpl; [done|].
  unfold R in Hy. by rewrite Hy.
Qed.

Hypothesis le_trans : forall a b c, le a b = true -> le b c = true -> le a c = true.

Lemma sort_by_sorted_id l : StronglySorted R l -> sort_by le l = l.
Proof.
  induction 1 as [|x l Hs IH Hx]; [done|].
  unfold sort_by in *. simpl. rewrite IH. by apply insert_sorted_least.
Qed.

Lemma sort_by_StronglySorted l : StronglySorted R (sort_by le l).
Proof.
  apply Sorted_StronglySorted; [|apply sort_by_Sorted].
  intros a b c. apply le_trans.
Qed.

Lemma filter_insert_sorted (P : A -> bool) x l :
  StronglySorted R l ->
  List.filter P (insert_sorted le x l)
  = if P x then insert_sorted le x (List.filter P l) else List.filter P l.
Proof.
  induction 1 as [|y l Hs IH Hy]; simpl.
  - by destruct (P x).
  - destruct (le x y) eqn:E; simpl.
    + destruct (P x); [|done].
      symmetry. apply insert_sorted_least.
      assert (Forall (R x) (y :: l)) as Hall.
      { constructor; [done|].
        eapply Forall_impl; [exact Hy|]. intros z Hz. by eapply le_trans. }
      change (Forall (R x) (List.filter P (y :: l))).
      apply Forall_forall. intros z Hz.
      apply list_elem_of_In, filter_In in Hz as [Hz _].
      rewrite Forall_forall in Hall. by apply Hall, list_elem_of_In.
    + rewrite IH. destruct (P x), (P y); simpl; by rewrite ?E.
Qed.

Lemma filter_sort_by (P : A -> bool) l :
  List.filter P (sort_by le l) = sort_by le (List.filter P l).
Proof.
  induction l as [|x l IH]; [done|].
  change (sort_by le (x :: l)) with (insert_sorted le x (sort_by le l)).
  rewrite filter_insert_sorted by apply sort_by_StronglySorted.
  simpl. destruct (P x); [|done].
  by rewrite IH.
Qed.

End SortFacts.

(** ** The query engine *)

Lemma rank_le_total a b : rank_le a b = true \/ rank_le b a = true.
Proof. unfold rank_le. lia. Qed.

Lemma rank_le_trans a b c :
  rank_le a b = true -> rank_le b c = true -> rank_le a c = true.
Proof. unfold rank_le. lia. Qed.

Lemma filter_fmap_swap {A B} (f : A -> B) (P : B -> bool) (l : list A) :
  List.filter P (f <$> l) = f <$> List.filter (fun a => P (f a)) l.
Proof.
  induction l as [|a l IH]; [done|].
  rewrite fmap_cons. cbn [List.filter].
  destruct (P (f a)); by rewrite ?fmap_cons, IH.
Qed.

Lemma filter_filter {A} (P Q : A -> bool) (l : list A) :
  List.filter P (List.filter Q l) = List.filter (fun a => Q a && P a) l.
Proof.
  induction l as [|a l IH]; simpl; [done|].
  destruct (Q a); simpl; [|done].
  destruct (P a); by rewrite IH.
Qed.

(** The arguments [rank_from] and [rank_to] reach the query only through
    their truth values and, when both are true, through the range clause. *)
Lemma where_clauses_no_range reg rf rt countries team name_player :
  truthy_int rf && truthy_int rt = false ->
  where_clauses reg rf rt countries team name_player
  = where_clauses reg None None countries team name_player.
Proof. unfold where_clauses. by intros ->. Qed.


(** ** Text *)

Module TextFacts.
Import Text.





End TextFacts.




(** C10.  A bound equal to [0] disables the range: with [rank_from = 0] and
    any [rank_to], or [rank_to = 0] and any [rank_from], the result is the
    one of the call with both bounds absent. *)
Theorem rank_range_zero_is_absent db reg countries team name_player :
  (forall rt,
     get_players db reg (Some 0) rt countries team name_player
     = get_players db reg None None countries team name_player)
  /\ (forall rf,
     get_players db reg rf (Some 0) countries team name_player
     = get_players db reg None None countries team name_player).
Proof.
  split; intros x; unfold get_players.
  - by rewrite (where_clauses_no_range reg (Some 0) x).
  - rewrite (where_clauses_no_range reg x (Some 0)); [done|].
    apply andb_false_r.
Qed.


(** *** The [countries] filter *)

Lemma country_clause_true countries r :
  sql_is_true (country_clause countries r) = true
  <-> exists c, country r = Some c /\ In (Text.sql_upper c) countries.
Proof.
  unfold country_clause, sql_in. destruct (country r) as [c|]; simpl.
  - destruct (existsb _ countries) eqn:E.
    + apply existsb_exists in E as (m & Hm & He).
      apply String.eqb_eq in He as <-. split; [eauto|done].
    + split; [done|]. intros (c' & [= <-] & Hin).
      assert (existsb (String.eqb (Text.sql_upper c)) countries = true)
        as E'; [|congruence].
      apply existsb_exists.
      exists (Text.sql_upper c). split; [done|]. apply String.eqb_refl.
  - split; [done|]. by intros (c & ? & _).
Qed.

(** C1.  On the three sample rows, the query [countries=["us"], team="yes"]
    returns no row: [UPPER(country)] is compared with the members of the list
    as they were passed.  The case-insensitive membership keeps the row of
    rank 3, and so does the query with the code in upper case. *)
Theorem countries_filter_lowercase_member :
  get_players sample_db "europe" None None (Some ["us"]) (Some "yes") None = []
  /\ select_cols <$>
       List.filter (fun r => country_in_nocase ["us"] r && has_team r)
                   (players sample_db)
     = [select_cols (sample_row 3 "Bjorn" (Some "XYZ") (Some "US"))]
  /\ get_players sample_db "europe" None None (Some ["US"]) (Some "yes") None
     = [select_cols (sample_row 3 "Bjorn" (Some "XYZ") (Some "US"))].
Proof. repeat split; reflexivity. Qed.

(** *** The name filter *)


(** C8.  The prefix ["jo"] keeps ["John"] and ["joanna"] and drops
    ["Bjorn"]; the prefix ["_j"] keeps ["Bjorn"], whose lowercased name does
    not start with ["_j"]: the pattern passed to [LIKE] reads [_] as a
    wildcard. *)
Theorem name_prefix_wildcard_is_live :
  o_name <$> get_players sample_db "europe" None None None None (Some "jo")
  = ["John"; "joanna"]
  /\ o_name <$> get_players sample_db "europe" None None None None (Some "_j")
     = ["Bjorn"]
  /\ Text.startswith (Text.py_lower "_j") (Text.py_lower "Bjorn") = false.
Proof. repeat split; reflexivity. Qed.

(** ** The fetcher *)

Lemma assign_ranks_length idx l : length (assign_ranks idx l) = length l.
Proof. revert idx. induction l as [|p l IH]; intros idx; simpl; [done|]. by rewrite IH. Qed.

Lemma assign_ranks_lookup idx l (i : nat) p :
  l !! i = Some p ->
  assign_ranks idx l !! i = Some (set_rank (idx + Z.of_nat i) p).
Proof.
  revert idx i. induction l as [|q l IH]; intros idx i Hi; [done|].
  destruct i as [|i]; simpl in *.
  - injection Hi as ->. by rewrite Z.add_0_r.
  - rewrite (IH (idx + 1) i Hi). do 2 f_equal. lia.
Qed.

Lemma assign_ranks_ranks idx l :
  p_rank <$> assign_ranks idx l
  = (fun i : nat => Some (idx + Z.of_nat i)) <$> seq 0 (length l).
Proof.
  revert idx. induction l as [|q l IH]; intros idx; [done|].
  cbn [assign_ranks length seq]. rewrite !fmap_cons, IH.
  cbn [set_rank p_rank]. rewrite Z.add_0_r. f_equal.
  rewrite <- seq_shift, <- list_fmap_compose.
  apply list_fmap_ext. intros _ i _. simpl. f_equal. lia.
Qed.

Lemma assign_ranks_from_one l :
  p_rank <$> assign_ranks 1 l
  = (fun k : nat => Some (Z.of_nat k)) <$> seq 1 (length l).
Proof.
  rewrite assign_ranks_ranks, <- seq_shift, <- list_fmap_compose.
  apply list_fmap_ext. intros _ i _. simpl. f_equal. lia.
Qed.

Section Fetch.
Variable net : string -> response.

Lemma zip_with_responses regs :
  zip regs (net <$> regs) = (fun reg => (reg, net reg)) <$> regs.
Proof.
  induction regs as [|r regs IH]; [done|].
  rewrite !fmap_cons. cbn [zip_with]. by rewrite IH.
Qed.

Lemma fetch_fold regs database tp np :
  foldl fetch_step (database, tp, np) ((fun reg => (reg, net reg)) <$> regs)
  = (foldl (board_step net) database regs,
     foldl Z.max tp (posted <$> omap (fun reg => reply_of (net reg)) regs),
     foldl Z.max np (next_post <$> omap (fun reg => reply_of (net reg)) regs)).
Proof.
  revert database tp np. induction regs as [|r regs IH]; intros; [done|].
  cbn [fmap list_fmap foldl omap list_omap]. unfold fetch_step at 2, board_step at 2.
  cbn [fst snd]. destruct (net r) as [|data]; cbn [reply_of]; apply IH.
Qed.

Lemma board_fold_notin regs database reg :
  reg ∉ regs -> foldl (board_step net) database regs !! reg = database !! reg.
Proof.
  revert database. induction regs as [|r regs IH]; intros database Hn; [done|].
  apply not_elem_of_cons in Hn as [Hne Hn]. simpl. rewrite IH by done.
  unfold board_step. destruct (net r); [done|]. by rewrite lookup_insert_ne.
Qed.

Lemma board_fold_in regs database reg :
  NoDup regs -> reg ∈ regs ->
  foldl (board_step net) database regs !! reg
  = match net reg with
    | Failed => database !! reg
    | Replied data => Some (ranked data)
    end.
Proof.
  revert database. induction regs as [|r regs IH]; intros database Hnd Hin.
  { by apply elem_of_nil in Hin. }
  apply NoDup_cons in Hnd as [Hr Hnd]. simpl.
  destruct (decide (reg = r)) as [->|Hne].
  - rewrite board_fold_notin by done. unfold board_step.
    destruct (net r); [done|]. by rewrite lookup_insert_eq.
  - apply elem_of_cons in Hin as [?|Hin]; [done|].
    rewrite IH by done. destruct (net reg); [|done].
    unfold board_step. destruct (net r); [done|]. by rewrite lookup_insert_ne.
Qed.

Lemma board_fold_all_failed regs database :
  (forall reg, reg ∈ regs -> net reg = Failed) ->
  foldl (board_step net) database regs = database.
Proof.
  revert database. induction regs as [|r regs IH]; intros database Hall; [done|].
  simpl. unfold board_step at 2. rewrite (Hall r) by apply list_elem_of_here.
  apply IH. intros reg Hin. apply Hall. by apply list_elem_of_further.
Qed.

Lemma REGIONS_NoDup : NoDup REGIONS.
Proof. apply (bool_decide_unpack (NoDup REGIONS)). by vm_compute. Qed.

(** [fetch_leaderboards], in closed form. *)
Lemma fetch_leaderboards_unfold :
  fetch_leaderboards net
  = if decide (foldl (board_step net) ∅ REGIONS = ∅) then None
    else Some {| boards := foldl (board_step net) ∅ REGIONS;
                 time_posted := foldl Z.max 0 (posted <$> replies net);
                 next_scheduled_post_time :=
                   foldl Z.max 0 (next_post <$> replies net) |}.
Proof.
  unfold fetch_leaderboards. rewrite zip_with_responses, fetch_fold. done.
Qed.

Lemma fetch_none_iff :
  fetch_leaderboards net = None <-> forall reg, reg ∈ REGIONS -> net reg = Failed.
Proof.
  rewrite fetch_leaderboards_unfold. split.
  - destruct (decide _) as [He|]; [|done]. intros _ reg Hin.
    pose proof (board_fold_in REGIONS ∅ reg REGIONS_NoDup Hin) as Hl.
    rewrite He, lookup_empty in Hl. by destruct (net reg).
  - intros Hall. rewrite board_fold_all_failed by done.
    by rewrite decide_True.
Qed.

Lemma fetch_some_boards data reg :
  fetch_leaderboards net = Some data ->
  boards data !! reg
  = if bool_decide (reg ∈ REGIONS)
    then ranked <$> reply_of (net reg) else None.
Proof.
  rewrite fetch_leaderboards_unfold.
  pose proof (board_fold_in REGIONS ∅ reg REGIONS_NoDup) as Hin.
  pose proof (board_fold_notin REGIONS ∅ reg) as Hout.
  revert Hin Hout. generalize (foldl (board_step net) ∅ REGIONS).
  intros m Hin Hout. destruct (decide (m = ∅)); [done|].
  intros [= <-]. cbn [boards]. case_bool_decide as Hreg.
  - rewrite Hin by done. by destruct (net reg).
  - by rewrite Hout.
Qed.

End Fetch.

Lemma replied_in_replies net reg data :
  reg ∈ REGIONS -> net reg = Replied data -> data ∈ replies net.
Proof.
  intros Hin Hnet. unfold replies. apply list_elem_of_omap.
  exists reg. split; [done|]. by rewrite Hnet.
Qed.


Lemma europe_in_REGIONS : "europe" ∈ REGIONS.
Proof. apply list_elem_of_further, list_elem_of_here. Qed.



(** C5.  A region that replied with a list of [N] entries is stored in the
    snapshot with the same entries in the same order, the entry at position
    [i] (from 0) carrying the rank [i + 1]: the ranks are [1, 2, ..., N]. *)
Theorem fetch_assigns_dense_ranks
    (net : string -> response) (reg : string) (reply : api_data) :
  reg ∈ REGIONS -> net reg = Replied reply ->
  exists data board,
    fetch_leaderboards net = Some data
    /\ boards data !! reg = Some board
    /\ length board = length (default [] (d_leaderboard reply))
    /\ p_rank <$> board
       = (fun k : nat => Some (Z.of_nat k))
           <$> seq 1 (length (default [] (d_leaderboard reply)))
    /\ forall (i : nat) p,
         default [] (d_leaderboard reply) !! i = Some p ->
         board !! i = Some (set_rank (Z.of_nat i + 1) p).
Proof.
  intros Hin Hnet.
  destruct (fetch_leaderboards net) as [data|] eqn:Hf.
  - exists data, (ranked reply). split; [done|].
    split.
    { rewrite (fetch_some_boards net data reg Hf).
      rewrite bool_decide_eq_true_2 by done. by rewrite Hnet. }
    unfold ranked. split; [apply assign_ranks_length|].
    split; [apply assign_ranks_from_one|].
    intros i p Hi. rewrite (assign_ranks_lookup 1 _ i p Hi).
    do 2 f_equal. lia.
  - pose proof (proj1 (fetch_none_iff net) Hf reg Hin) as Hfail. congruence.
Qed.

Lemma fetch_assigns_dense_ranks_witness :
  exists data board,
    fetch_leaderboards sample_net = Some data
    /\ boards data !! "europe" = Some board
    /\ length board = 2%nat
    /\ p_rank <$> board = [Some 1; Some 2]
    /\ forall (i : nat) p,
         [sample_entry "first"; sample_entry "second"] !! i = Some p ->
         board !! i = Some (set_rank (Z.of_nat i + 1) p).
Proof.
  apply (fetch_assigns_dense_ranks sample_net "europe" sample_reply).
  - apply europe_in_REGIONS.
  - reflexivity.
Defined.

(** ** The store *)

Lemma insert_player_spec reg p tbl tbl' :
  insert_player reg p tbl = Some tbl' ->
  exists r, tbl' = (tbl ++ [r])%list /\ stored_as reg p r.
Proof.
  unfold insert_player. destruct (p_rank p) as [k|] eqn:Hk; [|done].
  destruct (existsb _ tbl); [done|]. intros [= <-].
  eexists. split; [done|]. by repeat split.
Qed.

Lemma executemany_insert_spec reg ps tbl tbl' :
  executemany_insert reg ps tbl = Some tbl' ->
  exists rows, tbl' = (tbl ++ rows)%list /\ Forall2 (stored_as reg) ps rows.
Proof.
  revert tbl. induction ps as [|p ps IH]; intros tbl; simpl.
  - intros [= <-]. exists []. by rewrite app_nil_r.
  - destruct (insert_player reg p tbl) as [tbl1|] eqn:Hi; [|done].
    intros Hrest. apply insert_player_spec in Hi as (r & -> & Hr).
    apply IH in Hrest as (rows & -> & Hrows).
    exists (r :: rows). rewrite <- app_assoc. split; [done|].
    by constructor.
Qed.

Lemma filter_stored_same reg ps rows :
  Forall2 (stored_as reg) ps rows -> List.filter (in_region reg) rows = rows.
Proof.
  induction 1 as [|p r ps rows Hr _ IH]; [done|].
  simpl. unfold in_region at 1. destruct Hr as [-> _].
  by rewrite String.eqb_refl, IH.
Qed.

Lemma filter_stored_other reg reg' ps rows :
  reg' ≠ reg -> Forall2 (stored_as reg) ps rows ->
  List.filter (in_region reg') rows = [].
Proof.
  intros Hne. induction 1 as [|p r ps rows Hr _ IH]; [done|].
  simpl. unfold in_region at 1. destruct Hr as [Hr _].
  destruct (String.eqb_spec (region r) reg'); [congruence|done].
Qed.

Lemma filter_delete_same reg tbl :
  List.filter (in_region reg) (delete_region reg tbl) = [].
Proof.
  unfold delete_region. rewrite filter_filter.
  induction tbl as [|r tbl IH]; [done|]. simpl.
  unfold in_region at 1. by destruct (String.eqb (region r) reg).
Qed.

Lemma filter_delete_other reg reg' tbl :
  reg' ≠ reg ->
  List.filter (in_region reg') (delete_region reg tbl)
  = List.filter (in_region reg') tbl.
Proof.
  intros Hne. unfold delete_region. rewrite filter_filter.
  apply filter_ext. intros r. unfold in_region.
  destruct (String.eqb_spec (region r) reg'), (String.eqb_spec (region r) reg);
    simpl; congruence.
Qed.

Lemma save_region_same data reg rows tbl tbl' :
  boards data !! reg = Some rows -> rows ≠ [] ->
  save_region data reg tbl = Some tbl' ->
  exists stored,
    List.filter (in_region reg) tbl' = stored
    /\ Forall2 (stored_as reg) rows stored.
Proof.
  intros Hb Hne. unfold save_region. rewrite Hb. cbn [default].
  destruct rows as [|p ps]; [done|]. intros Hs.
  apply executemany_insert_spec in Hs as (stored & -> & Hst).
  exists stored. split; [|done].
  rewrite List.filter_app, filter_delete_same. simpl.
  by eapply filter_stored_same.
Qed.

Lemma save_region_other data reg reg' tbl tbl' :
  reg' ≠ reg -> save_region data reg tbl = Some tbl' ->
  List.filter (in_region reg') tbl' = List.filter (in_region reg') tbl.
Proof.
  intros Hne. unfold save_region.
  destruct (default [] (boards data !! reg)) as [|p ps] eqn:Hb.
  { by intros [= <-]. }
  intros Hs. apply executemany_insert_spec in Hs as (stored & -> & Hst).
  rewrite List.filter_app, filter_delete_other by done.
  rewrite (filter_stored_other reg reg' (p :: ps) stored) by done.
  apply app_nil_r.
Qed.

Lemma save_regions_other data regs reg' tbl tbl' :
  reg' ∉ regs -> save_regions data regs tbl = Some tbl' ->
  List.filter (in_region reg') tbl' = List.filter (in_region reg') tbl.
Proof.
  revert tbl. induction regs as [|reg regs IH]; intros tbl Hn; simpl.
  { by intros [= <-]. }
  apply not_elem_of_cons in Hn as [Hne Hn].
  destruct (save_region data reg tbl) as [tbl1|] eqn:H1; [|done].
  intros Hrest. rewrite (IH tbl1 Hn Hrest).
  by eapply save_region_other.
Qed.

Lemma save_regions_same data regs reg rows tbl tbl' :
  NoDup regs -> reg ∈ regs ->
  boards data !! reg = Some rows -> rows ≠ [] ->
  save_regions data regs tbl = Some tbl' ->
  exists stored,
    List.filter (in_region reg) tbl' = stored
    /\ Forall2 (stored_as reg) rows stored.
Proof.
  intros Hnd Hin Hb Hne. revert tbl.
  induction regs as [|r regs IH]; intros tbl; [by apply elem_of_nil in Hin|].
  apply NoDup_cons in Hnd as [Hr Hnd]. simpl.
  destruct (save_region data r tbl) as [tbl1|] eqn:H1; [|done].
  intros Hrest. destruct (decide (reg = r)) as [->|Hneq].
  - rewrite (save_regions_other data regs r tbl1 tbl' Hr Hrest).
    by eapply save_region_same.
  - apply elem_of_cons in Hin as [?|Hin]; [done|]. by eapply IH.
Qed.

Lemma get_players_unfiltered db reg :
  get_players db reg None None None None None
  = select_cols <$> sort_by rank_le (List.filter (in_region reg) (players db)).
Proof.
  unfold get_players. do 2 f_equal. apply filter_ext. intros r.
  unfold satisfies, where_clauses, in_region. simpl.
  by destruct (String.eqb (region r) reg).
Qed.

Lemma save_to_db_players data db db' :
  save_to_db data db = Some db' ->
  save_regions data REGIONS (players db) = Some (players db').
Proof.
  unfold save_to_db. destruct (save_regions _ _ _); [|done]. by intros [= <-].
Qed.

Lemma save_to_db_metadata data db db' :
  save_to_db data db = Some db' ->
  metadata db' !! "time_posted" = Some (time_posted data)
  /\ metadata db' !! "next_scheduled_post_time"
     = Some (next_scheduled_post_time data).
Proof.
  unfold save_to_db. destruct (save_regions _ _ _); [|done]. intros [= <-].
  cbn [metadata]. split.
  - rewrite lookup_insert_ne by done. apply lookup_insert_eq.
  - apply lookup_insert_eq.
Qed.

Lemma stored_shown reg p r : stored_as reg p r -> shown_as p (select_cols r).
Proof. intros (_ & ? & ? & ? & ? & ? & ?). by repeat split. Qed.

Lemma Sorted_fmap {A B} (f : A -> B) (R : A -> A -> Prop) (R' : B -> B -> Prop)
    (l : list A) :
  (forall a b, R a b -> R' (f a) (f b)) -> Sorted R l -> Sorted R' (f <$> l).
Proof.
  intros Hf. induction 1 as [|a l Hs IH Hhd]; [constructor|].
  rewrite fmap_cons. constructor; [done|].
  destruct Hhd; [constructor|]. rewrite fmap_cons. constructor. by apply Hf.
Qed.

Lemma stored_ascending reg rows stored :
  Forall2 (stored_as reg) rows stored -> ranks_ascending rows ->
  StronglySorted (fun a b => rank_le a b = true) stored.
Proof.
  unfold ranks_ascending.
  induction 1 as [|p r ps rs Hr Hrest IH]; intros Hs; [constructor|].
  apply StronglySorted_inv in Hs as [Hs Hp].
  constructor; [by apply IH|].
  clear IH Hs. induction Hrest as [|q s qs ss Hq _ IH]; [constructor|].
  apply Forall_cons in Hp as [Hpq Hp].
  constructor; [|by apply IH].
  unfold rank_le. apply Z.leb_le. apply Hpq; [apply Hr|apply Hq].
Qed.

(** C2.  After [save_to_db] succeeded on a snapshot that holds the non-empty
    list [rows] for a region, the unfiltered query of that region returns
    one row per entry of [rows] and nothing else, in ascending order of
    rank; when [rows] comes with ascending ranks it is returned in its own
    order. *)
Theorem replace_region_then_query
    (data : snapshot) (db db' : database) (reg : string) (rows : list player) :
  reg ∈ REGIONS ->
  boards data !! reg = Some rows ->
  rows ≠ [] ->
  save_to_db data db = Some db' ->
  (exists rows', rows' ≡ₚ rows
     /\ Forall2 shown_as rows'
          (get_players db' reg None None None None None))
  /\ Sorted (fun a b => o_rank a <= o_rank b)
       (get_players db' reg None None None None None)
  /\ (ranks_ascending rows ->
      Forall2 shown_as rows (get_players db' reg None None None None None)).
Proof.
  intros Hin Hb Hne Hsave. rewrite get_players_unfiltered.
  apply save_to_db_players in Hsave.
  destruct (save_regions_same data REGIONS reg rows _ _
              REGIONS_NoDup Hin Hb Hne Hsave) as (stored & -> & Hst).
  split; [|split].
  - pose proof (sort_by_perm rank_le stored) as Hperm.
    apply Forall2_flip in Hst.
    destruct (Permutation_Forall2 (Permutation_sym Hperm) Hst)
      as (rows' & Hrows & Hst').
    exists rows'. split; [by symmetry|].
    apply Forall2_fmap_r, Forall2_flip.
    eapply Forall2_impl; [exact Hst'|].
    intros r p Hrp. by eapply stored_shown.
  - eapply Sorted_fmap; [|apply (sort_by_Sorted rank_le rank_le_total)].
    intros a b Hab. unfold rank_le in Hab. simpl. lia.
  - intros Hasc.
    rewrite (sort_by_sorted_id rank_le) by by eapply stored_ascending.
    apply Forall2_fmap_r. eapply Forall2_impl; [exact Hst|].
    intros p r Hpr. by eapply stored_shown.
Qed.

Lemma replace_region_then_query_witness :
  (exists rows', rows' ≡ₚ ranked sample_reply
     /\ Forall2 shown_as rows'
          (get_players sample_db_saved "europe" None None None None None))
  /\ Sorted (fun a b => o_rank a <= o_rank b)
       (get_players sample_db_saved "europe" None None None None None)
  /\ (ranks_ascending (ranked sample_reply) ->
      Forall2 shown_as (ranked sample_reply)
        (get_players sample_db_saved "europe" None None None None None)).
Proof.
  apply (replace_region_then_query sample_snapshot sample_db sample_db_saved
           "europe" (ranked sample_reply)).
  - apply europe_in_REGIONS.
  - reflexivity.
  - discriminate.
  - reflexivity.
Defined.

(** A cycle whose only reply is an empty list is fetched and saved, and the
    region keeps the three rows it had. *)
Lemma replace_with_empty_rows_counterexample :
  fetch_leaderboards empty_net = Some empty_snapshot
  /\ boards empty_snapshot !! "europe" = Some []
  /\ save_to_db empty_snapshot sample_db = Some sample_db_kept
  /\ o_rank <$> get_players sample_db_kept "europe" None None None None None
     = [1; 2; 3].
Proof. repeat split; reflexivity. Qed.

(** ** The time stamps *)

Lemma foldl_max_bounds a l :
  a <= foldl Z.max a l
  /\ Forall (fun x => x <= foldl Z.max a l) l
  /\ (foldl Z.max a l = a \/ In (foldl Z.max a l) l).
Proof.
  revert a. induction l as [|x l IH]; intros a; simpl.
  - split; [lia|]. split; [constructor|by left].
  - destruct (IH (Z.max a x)) as (Hle & Hall & Hin).
    split; [lia|]. split; [constructor; [lia|done]|].
    destruct Hin as [Heq|Hin]; [|by right; right].
    rewrite Heq.
    destruct (Z.max_spec a x) as [[_ ->]|[_ ->]]; [right; by left|by left].
Qed.


Lemma replies_nil_all_failed net :
  replies net = [] -> forall reg, reg ∈ REGIONS -> net reg = Failed.
Proof.
  intros Hnil reg Hin. destruct (net reg) as [|data] eqn:Hnet; [done|].
  pose proof (replied_in_replies net reg data Hin Hnet) as Hd.
  rewrite Hnil in Hd. by apply elem_of_nil in Hd.
Qed.

Lemma fetch_some_stamps net data :
  fetch_leaderboards net = Some data ->
  replies net ≠ []
  /\ time_posted data = foldl Z.max 0 (posted <$> replies net)
  /\ next_scheduled_post_time data
     = foldl Z.max 0 (next_post <$> replies net).
Proof.
  intros Hf. split.
  - intros Hnil.
    pose proof (proj2 (fetch_none_iff net) (replies_nil_all_failed net Hnil)).
    congruence.
  - rewrite fetch_leaderboards_unfold in Hf.
    destruct (decide _); [done|]. by injection Hf as <-.
Qed.



(** ** The scheduler *)

(** C3.  In a cycle that fetched a snapshot and saved it, the scheduler
    sleeps [next_scheduled_post_time - now] seconds when that time is
    strictly later than [now], and 3600 seconds otherwise. *)
Theorem scheduler_sleep_after_update
    (net : string -> response) (now : Z) (db db' : database)
    (data : snapshot) :
  fetch_leaderboards net = Some data ->
  save_to_db data db = Some db' ->
  (now < next_scheduled_post_time data ->
   scheduled_cycle net now db = (db', next_scheduled_post_time data - now))
  /\ (next_scheduled_post_time data <= now ->
      scheduled_cycle net now db = (db', 3600)).
Proof.
  intros Hf Hs. unfold scheduled_cycle. rewrite Hf, Hs.
  split; intros Hcmp.
  - by rewrite (proj2 (Z.gtb_lt _ _)) by lia.
  - destruct (Z.gtb_spec (next_scheduled_post_time data) now); [lia|done].
Qed.

Lemma scheduler_sleep_after_update_witness :
  scheduled_cycle sample_net 4000 sample_db = (sample_db_saved, 600)
  /\ scheduled_cycle sample_net 4600 sample_db = (sample_db_saved, 3600).
Proof.
  split.
  - apply (scheduler_sleep_after_update sample_net 4000 sample_db
             sample_db_saved sample_snapshot); [reflexivity|reflexivity|].
    vm_compute. reflexivity.
  - apply (scheduler_sleep_after_update sample_net 4600 sample_db
             sample_db_saved sample_snapshot); [reflexivity|reflexivity|].
    vm_compute. discriminate.
Defined.

(** ** The country index *)

Lemma distinct_In x l : In x (distinct l) <-> In x l.
Proof.
  induction l as [|y l IH]; simpl; [done|].
  rewrite filter_In, IH. split.
  - intros [?|[? _]]; auto.
  - intros [?|Hx]; [by left|].
    destruct (String.eqb_spec x y) as [->|Hne]; [by left|].
    right. split; [done|]. done.
Qed.

Lemma distinct_NoDup l : NoDup (distinct l).
Proof.
  induction l as [|y l IH]; simpl; [constructor|].
  constructor.
  - rewrite list_elem_of_In, filter_In, String.eqb_refl. by intros [_ ?].
  - apply NoDup_ListNoDup, List.NoDup_filter, NoDup_ListNoDup, IH.
Qed.

Lemma select_codes_In db reg code :
  In code (select_codes db reg)
  <-> exists r c, In r (players db) /\ region r = reg
        /\ country r = Some c /\ code = Text.sql_upper c.
Proof.
  unfold select_codes. rewrite distinct_In, <- list_elem_of_In.
  rewrite list_elem_of_omap. split.
  - intros (r & Hr & Hc). apply list_elem_of_In in Hr.
    destruct (String.eqb_spec (region r) reg) as [Hreg|]; [|done].
    destruct (country r) as [c|] eqn:Ec; [|done].
    injection Hc as <-. by exists r, c.
  - intros (r & c & Hr & Hreg & Ec & ->). exists r.
    split; [by apply list_elem_of_In|].
    rewrite Ec. destruct (String.eqb_spec (region r) reg); [done|congruence].
Qed.

Lemma by_name_total a b : by_name a b = true \/ by_name b a = true.
Proof. apply String.leb_total. Qed.

Section CountryIndex.
Variable countries_by_alpha2 : string -> option string.

(** C9.  The keys of [get_countries] are the country codes of the rows of
    the region, in upper case and each once; a key is mapped to the name the
    reference table gives it, or to ["Unknown"] when the table has none; the
    items are in ascending order of that name. *)
Theorem get_countries_index (db : database) (reg : string) :
  (forall code,
     In code (get_countries countries_by_alpha2 db reg).*1
     <-> exists r c, In r (players db) /\ region r = reg
           /\ country r = Some c /\ code = Text.sql_upper c)
  /\ NoDup (get_countries countries_by_alpha2 db reg).*1
  /\ (forall code nm,
        In (code, nm) (get_countries countries_by_alpha2 db reg) ->
        nm = match countries_by_alpha2 code with
             | Some n => n
             | None => "Unknown"
             end)
  /\ Sorted (fun a b => String.leb a.2 b.2 = true)
       (get_countries countries_by_alpha2 db reg).
Proof.
  unfold get_countries.
  set (pairs := (fun code => (code, country_name countries_by_alpha2 code))
                  <$> select_codes db reg).
  pose proof (sort_by_perm by_name pairs) as Hperm.
  assert (pairs.*1 = select_codes db reg) as Hfst.
  { unfold pairs. rewrite <- list_fmap_compose. apply list_fmap_id. }
  split; [|split; [|split]].
  - intros code. rewrite <- select_codes_In, <- Hfst, <- !list_elem_of_In.
    by rewrite Hperm.
  - rewrite Hperm, Hfst. apply distinct_NoDup.
  - intros code nm Hin. apply list_elem_of_In in Hin.
    rewrite Hperm in Hin. unfold pairs in Hin.
    apply list_elem_of_fmap in Hin as (c & [= -> ->] & _). done.
  - apply (sort_by_Sorted by_name by_name_total).
Qed.

End CountryIndex.

Lemma get_countries_index_sample :
  get_countries sample_names sample_codes_db "europe"
  = [("SE", "Sweden"); ("US", "United States of America"); ("ZZ", "Unknown")].
Proof. reflexivity. Qed.

(** * Further properties of the code *)

(** ** Queries *)

Lemma where_clauses_cons reg rf rt countries team name_player :
  where_clauses reg rf rt countries team name_player
  = region_clause reg :: filter_clauses rf rt countries team name_player.
Proof. reflexivity. Qed.

Lemma satisfies_split reg rf rt countries team name_player r :
  satisfies (where_clauses reg rf rt countries team name_player) r
  = in_region reg r
    && satisfies (filter_clauses rf rt countries team name_player) r.
Proof.
  rewrite where_clauses_cons. unfold satisfies. cbn [forallb].
  unfold region_clause, in_region. by destruct (String.eqb (region r) reg).
Qed.

(** The query reads the table through the rows of its region only. *)
Lemma get_players_by_region db reg rf rt countries team name_player :
  get_players db reg rf rt countries team name_player
  = select_cols <$>
      List.filter
        (satisfies (filter_clauses rf rt countries team name_player))
        (sort_by rank_le (List.filter (in_region reg) (players db))).
Proof.
  unfold get_players. f_equal.
  rewrite (filter_sort_by rank_le rank_le_total rank_le_trans).
  f_equal. rewrite filter_filter. apply filter_ext. intros r.
  apply satisfies_split.
Qed.

Lemma filter_sublist {A} (P : A -> bool) (l : list A) :
  sublist (List.filter P l) l.
Proof.
  induction l as [|a l IH]; simpl; [constructor|].
  destruct (P a); by constructor.
Qed.

(** One more clause on the selected columns filters the result. *)
Lemma get_players_refine db reg (P : player_out -> bool)
    rf rt countries team name_player rf' rt' countries' team' name_player' :
  (forall r,
     satisfies (filter_clauses rf rt countries team name_player) r
     = satisfies (filter_clauses rf' rt' countries' team' name_player') r
       && P (select_cols r)) ->
  get_players db reg rf rt countries team name_player
  = List.filter P
      (get_players db reg rf' rt' countries' team' name_player').
Proof.
  intros Hsat. rewrite !get_players_by_region, filter_fmap_swap. f_equal.
  rewrite filter_filter. by apply filter_ext.
Qed.

Example split_commas_sample :
  split_commas "US,,se" = ["US"; ""; "se"] /\ split_commas "" = [""]
  /\ split_commas "," = [""; ""].
Proof. repeat split; reflexivity. Qed.

(** The clauses other than the one on the team, gathered for rewriting. *)
Ltac split_clauses :=
  unfold filter_clauses, satisfies; rewrite !forallb_app;
  repeat match goal with
    | |- context [forallb ?f (if ?b then ?x else [])] =>
        generalize (forallb f (if b then x else [])); intro
    end.

Ltac close_bools :=
  repeat match goal with b : bool |- _ => destruct b end; reflexivity.

(** X1.  Whatever the filters, the rows [get_players] returns are in
    ascending order of rank. *)
Theorem get_players_sorted db reg rf rt countries team name_player :
  Sorted (fun a b => o_rank a <= o_rank b)
    (get_players db reg rf rt countries team name_player).
Proof.
  unfold get_players.
  eapply Sorted_fmap; [|apply (sort_by_Sorted rank_le rank_le_total)].
  intros a b Hab. unfold rank_le in Hab. simpl. lia.
Qed.

(** X2.  Filters only narrow: the result of a query is a sublist of the
    unfiltered result of its region, and each of its rows is a stored row of
    that region. *)
Theorem get_players_narrows db reg rf rt countries team name_player :
  sublist (get_players db reg rf rt countries team name_player)
          (get_players db reg None None None None None)
  /\ forall o, In o (get_players db reg rf rt countries team name_player) ->
       exists r, In r (players db) /\ region r = reg /\ o = select_cols r.
Proof.
  split.
  - rewrite get_players_by_region, get_players_unfiltered.
    apply fmap_sublist, filter_sublist.
  - intros o Ho. unfold get_players in Ho. apply list_elem_of_In in Ho.
    apply list_elem_of_fmap in Ho as (r & -> & Hr).
    rewrite (sort_by_perm rank_le) in Hr.
    apply list_elem_of_In, filter_In in Hr as [Hr Hsat].
    exists r. split; [done|]. split; [|done].
    rewrite satisfies_split in Hsat. apply andb_true_iff in Hsat as [Hreg _].
    by apply String.eqb_eq in Hreg.
Qed.

Lemma team_yes_selected r :
  sql_is_true (team_yes_clause r) = o_has_team (select_cols r).
Proof.
  unfold team_yes_clause, o_has_team. simpl.
  by destruct (team_tag r) as [[|c t]|].
Qed.

Lemma team_no_selected r :
  sql_is_true (team_no_clause r) = negb (o_has_team (select_cols r)).
Proof.
  unfold team_no_clause, o_has_team. simpl.
  by destruct (team_tag r) as [[|c t]|].
Qed.

(** X3.  [team="yes"] keeps the rows whose team tag is present and not
    empty, [team="no"] keeps the others (a null tag and an empty tag alike),
    and any other value of [team] filters nothing. *)
Theorem team_filter_three_valued db reg rf rt countries name_player :
  get_players db reg rf rt countries (Some "yes") name_player
  = List.filter o_has_team
      (get_players db reg rf rt countries None name_player)
  /\ get_players db reg rf rt countries (Some "no") name_player
     = List.filter (fun o => negb (o_has_team o))
         (get_players db reg rf rt countries None name_player)
  /\ forall team, team ≠ "yes" -> team ≠ "no" ->
       get_players db reg rf rt countries (Some team) name_player
       = get_players db reg rf rt countries None name_player.
Proof.
  split; [|split].
  - apply get_players_refine. intros r. split_clauses.
    cbn [str_is String.eqb forallb Ascii.eqb Bool.eqb].
    rewrite team_yes_selected. destruct (o_has_team _); close_bools.
  - apply get_players_refine. intros r. split_clauses.
    cbn [str_is String.eqb forallb Ascii.eqb Bool.eqb].
    rewrite team_no_selected. destruct (o_has_team _); close_bools.
  - intros team Hy Hn. unfold get_players, where_clauses. cbn [str_is].
    apply String.eqb_neq in Hy, Hn. by rewrite Hy, Hn.
Qed.

Ltac hide_team_clause :=
  match goal with
  | |- context [forallb ?f (if str_is ?t "yes" then ?x else ?y)] =>
      generalize (forallb f (if str_is t "yes" then x else y)); intro
  end.

Lemma existsb_ext_Forall {A} (f g : A -> bool) (l : list A) :
  Forall (fun a => f a = g a) l -> existsb f l = existsb g l.
Proof. induction 1 as [|a l Ha _ IH]; simpl; [done|]. by rewrite Ha, IH. Qed.

Lemma country_clause_selected countries r :
  Forall (fun m => Text.sql_upper m = m) countries ->
  sql_is_true (country_clause countries r)
  = o_country_in_nocase countries (select_cols r).
Proof.
  intros Hup. unfold country_clause, o_country_in_nocase, sql_in. simpl.
  destruct (country r) as [c|]; simpl; [|done].
  rewrite (existsb_ext_Forall _
             (fun m => String.eqb (Text.sql_upper m) (Text.sql_upper c))).
  - by destruct (existsb _ countries).
  - eapply Forall_impl; [exact Hup|]. intros m Hm. simpl.
    rewrite Hm. apply String.eqb_sym.
Qed.

Lemma satisfies_upper_members
    rf rt (countries : list string) team name_player r :
  countries ≠ [] ->
  Forall (fun m => Text.sql_upper m = m) countries ->
  satisfies (filter_clauses rf rt (Some countries) team name_player) r
  = satisfies (filter_clauses rf rt None team name_player) r
    && o_country_in_nocase countries (select_cols r).
Proof.
  intros Hne Hup. destruct countries as [|m ms]; [done|].
  unfold filter_clauses. cbn [truthy_list default].
  split_clauses. hide_team_clause. cbn [forallb]. unfold id.
  rewrite (country_clause_selected (m :: ms) r Hup).
  destruct (o_country_in_nocase _ _); close_bools.
Qed.

(** X4.  When the members of a non-empty [countries] list are in upper case,
    the filter keeps exactly the rows whose stored code equals a member up to
    case; rows without a code are dropped. *)
Theorem countries_filter_upper_members
    db reg rf rt (countries : list string) team name_player :
  countries ≠ [] ->
  Forall (fun m => Text.sql_upper m = m) countries ->
  get_players db reg rf rt (Some countries) team name_player
  = List.filter (o_country_in_nocase countries)
      (get_players db reg rf rt None team name_player).
Proof.
  intros Hne Hup. apply get_players_refine. intros r.
  by apply satisfies_upper_members.
Qed.

Lemma countries_filter_upper_members_witness :
  get_players sample_db "europe" None None (Some ["SE"]) None None
  = List.filter (o_country_in_nocase ["SE"])
      (get_players sample_db "europe" None None None None None).
Proof.
  apply (countries_filter_upper_members sample_db "europe" None None ["SE"]).
  - discriminate.
  - repeat constructor.
Defined.



(** ** The constraints of the table *)

Lemma insert_player_Some reg p tbl :
  is_Some (insert_player reg p tbl)
  <-> exists k, p_rank p = Some k
        /\ forall r, r ∈ tbl -> region r = reg -> rank r ≠ k.
Proof.
  unfold insert_player. destruct (p_rank p) as [k|].
  - destruct (existsb _ tbl) eqn:E.
    + split; [by intros [? ?]|]. intros (k' & [= <-] & Hfree).
      apply existsb_exists in E as (r & Hr & Hk).
      apply andb_true_iff in Hk as [Hreg Hk].
      apply String.eqb_eq in Hreg. apply Z.eqb_eq in Hk.
      by destruct (Hfree r (proj2 (list_elem_of_In _ _) Hr) Hreg).
    + split; [|by eauto]. intros _. exists k. split; [done|].
      intros r Hr Hreg Hk.
      assert (existsb (fun r => String.eqb (region r) reg && (rank r =? k)) tbl
              = true) as E'; [|congruence].
      apply existsb_exists. exists r. split; [by apply list_elem_of_In|].
      apply andb_true_iff. split; [by apply String.eqb_eq|by apply Z.eqb_eq].
  - split; [by intros [? ?]|]. by intros (k & ? & _).
Qed.

Lemma executemany_insert_Some reg ps tbl :
  is_Some (executemany_insert reg ps tbl)
  <-> well_ranked ps
      /\ forall r, r ∈ tbl -> region r = reg -> Some (rank r) ∉ p_rank <$> ps.
Proof.
  unfold well_ranked. revert tbl. induction ps as [|p ps IH]; intros tbl.
  { simpl. split; [|by eauto]. intros _. repeat split; try constructor.
    intros r _ _. apply not_elem_of_nil. }
  cbn [executemany_insert]. rewrite fmap_cons, NoDup_cons, Forall_cons.
  destruct (insert_player reg p tbl) as [tbl1|] eqn:Hi.
  - pose proof (proj1 (insert_player_Some reg p tbl) (mk_is_Some _ _ Hi))
      as (k & Hk & Hfree).
    apply insert_player_spec in Hi as (row & -> & Hrow).
    destruct Hrow as (Hreg & Hrk & _). rewrite Hk in Hrk.
    injection Hrk as ->. rewrite IH, Hk. split.
    + intros ((Hall & Hnd) & Hcol). repeat split; try done.
      * apply (Hcol row); [|done]. apply elem_of_app. right.
        apply list_elem_of_here.
      * intros r Hr Hr'. rewrite not_elem_of_cons. split.
        -- intros [= E]. by apply (Hfree r Hr Hr').
        -- apply Hcol; [|done]. apply elem_of_app. by left.
    + intros (((_ & Hall) & Hk' & Hnd) & Hcol). repeat split; try done.
      intros r Hr Hr'. apply elem_of_app in Hr as [Hr|Hr].
      * specialize (Hcol r Hr Hr'). by apply not_elem_of_cons in Hcol as [_ ?].
      * by apply list_elem_of_singleton in Hr as ->.
  - split; [by intros [? ?]|]. intros (((Hp & Hall) & Hk' & Hnd) & Hcol).
    destruct Hp as [k Hk]. exfalso.
    assert (is_Some (insert_player reg p tbl)) as [? ?]; [|congruence].
    apply insert_player_Some. exists k. split; [done|].
    intros r Hr Hr' E. specialize (Hcol r Hr Hr').
    apply Hcol. rewrite Hk, E. apply list_elem_of_here.
Qed.

Lemma delete_region_clears reg tbl r :
  r ∈ delete_region reg tbl -> region r ≠ reg.
Proof.
  unfold delete_region. rewrite list_elem_of_In, filter_In.
  intros [_ Hr]. by destruct (String.eqb_spec (region r) reg).
Qed.

Lemma save_region_Some data reg tbl :
  is_Some (save_region data reg tbl)
  <-> well_ranked (default [] (boards data !! reg)).
Proof.
  unfold save_region. destruct (default [] (boards data !! reg)) as [|p ps].
  - split; [|by eauto]. intros _. split; constructor.
  - rewrite executemany_insert_Some. split; [by intros [? _]|].
    intros Hw. split; [done|]. intros r Hr Hreg.
    by apply delete_region_clears in Hr.
Qed.

Lemma save_regions_Some data regs tbl :
  is_Some (save_regions data regs tbl)
  <-> forall reg, reg ∈ regs -> well_ranked (default [] (boards data !! reg)).
Proof.
  revert tbl. induction regs as [|reg regs IH]; intros tbl; simpl.
  { split; [|by eauto]. intros _ reg Hin. by apply elem_of_nil in Hin. }
  destruct (save_region data reg tbl) as [tbl1|] eqn:Hs.
  - rewrite IH. split.
    + intros Hall reg' Hin. apply elem_of_cons in Hin as [->|Hin]; [|by auto].
      apply (save_region_Some data reg tbl). by rewrite Hs.
    + intros Hall reg' Hin. apply Hall. by apply list_elem_of_further.
  - split; [by intros [? ?]|]. intros Hall. exfalso.
    assert (is_Some (save_region data reg tbl)) as [? ?]; [|congruence].
    apply save_region_Some, Hall, list_elem_of_here.
Qed.

Lemma save_to_db_Some data db :
  is_Some (save_to_db data db)
  <-> is_Some (save_regions data REGIONS (players db)).
Proof.
  unfold save_to_db. destruct (save_regions _ _ _); split; eauto.
  all: by intros [? ?].
Qed.





Lemma insert_player_unique reg p tbl tbl' :
  unique_ranks tbl -> insert_player reg p tbl = Some tbl' -> unique_ranks tbl'.
Proof.
  unfold unique_ranks. intros Hu Hi.
  pose proof (proj1 (insert_player_Some reg p tbl) (mk_is_Some _ _ Hi))
    as (k & Hk & Hfree).
  apply insert_player_spec in Hi as (row & -> & Hreg & Hrk & _).
  rewrite Hk in Hrk. injection Hrk as ->.
  rewrite fmap_app. apply NoDup_app. split; [done|]. split.
  - intros key Hkey Hrow. apply list_elem_of_singleton in Hrow as ->.
    apply list_elem_of_fmap in Hkey as (r & [= Hr1 Hr2] & Hr).
    apply (Hfree r Hr); congruence.
  - apply NoDup_singleton.
Qed.

Lemma executemany_insert_unique reg ps tbl tbl' :
  unique_ranks tbl -> executemany_insert reg ps tbl = Some tbl' ->
  unique_ranks tbl'.
Proof.
  revert tbl. induction ps as [|p ps IH]; intros tbl Hu; simpl.
  - by intros [= <-].
  - destruct (insert_player reg p tbl) as [tbl1|] eqn:Hi; [|done].
    apply IH. by eapply insert_player_unique.
Qed.

Lemma save_region_unique data reg tbl tbl' :
  unique_ranks tbl -> save_region data reg tbl = Some tbl' ->
  unique_ranks tbl'.
Proof.
  intros Hu. unfold save_region.
  destruct (default [] (boards data !! reg)) as [|p ps].
  - by intros [= <-].
  - apply executemany_insert_unique. unfold unique_ranks in *.
    eapply sublist_NoDup; [exact Hu|]. apply fmap_sublist, filter_sublist.
Qed.

Lemma save_regions_unique data regs tbl tbl' :
  unique_ranks tbl -> save_regions data regs tbl = Some tbl' ->
  unique_ranks tbl'.
Proof.
  revert tbl. induction regs as [|reg regs IH]; intros tbl Hu; simpl.
  - by intros [= <-].
  - destruct (save_region data reg tbl) as [tbl1|] eqn:Hs; [|done].
    apply IH. by eapply save_region_unique.
Qed.

(** X8.  [save_to_db] keeps the table free of two rows with the same region
    and rank. *)
Theorem save_to_db_keeps_ranks_unique (data : snapshot) (db db' : database) :
  unique_ranks (players db) ->
  save_to_db data db = Some db' ->
  unique_ranks (players db').
Proof.
  intros Hu Hs. apply save_to_db_players in Hs.
  by eapply save_regions_unique.
Qed.

Lemma save_to_db_keeps_ranks_unique_witness :
  unique_ranks (players sample_db_saved).
Proof.
  apply (save_to_db_keeps_ranks_unique sample_snapshot sample_db
           sample_db_saved).
  - apply (bool_decide_unpack (unique_ranks (players sample_db))).
    by vm_compute.
  - reflexivity.
Defined.

Lemma get_players_region_ext db1 db2 reg rf rt countries team name_player :
  List.filter (in_region reg) (players db1)
  = List.filter (in_region reg) (players db2) ->
  get_players db1 reg rf rt countries team name_player
  = get_players db2 reg rf rt countries team name_player.
Proof. intros E. by rewrite !get_players_by_region, E. Qed.

Lemma save_region_skip data reg tbl :
  default [] (boards data !! reg) = [] -> save_region data reg tbl = Some tbl.
Proof. unfold save_region. by intros ->. Qed.

Lemma save_regions_untouched data regs reg' tbl tbl' :
  reg' ∉ regs \/ default [] (boards data !! reg') = [] ->
  save_regions data regs tbl = Some tbl' ->
  List.filter (in_region reg') tbl' = List.filter (in_region reg') tbl.
Proof.
  intros Hcase. revert tbl.
  induction regs as [|reg regs IH]; intros tbl; simpl.
  { by intros [= <-]. }
  destruct (save_region data reg tbl) as [tbl1|] eqn:Hs; [|done].
  intros Hrest.
  assert (reg' ∉ regs \/ default [] (boards data !! reg') = []) as Hcase'.
  { destruct Hcase as [Hn|He]; [|by right].
    left. by apply not_elem_of_cons in Hn as [_ ?]. }
  rewrite (IH Hcase' tbl1 Hrest).
  destruct (decide (reg' = reg)) as [->|Hne].
  - destruct Hcase as [Hn|He].
    + exfalso. apply Hn, list_elem_of_here.
    + rewrite (save_region_skip data reg tbl He) in Hs. by injection Hs as <-.
  - by eapply save_region_other.
Qed.



Lemma stored_as_functional reg rows s1 s2 :
  Forall2 (stored_as reg) rows s1 -> Forall2 (stored_as reg) rows s2 ->
  s1 = s2.
Proof.
  intros H1. revert s2. induction H1 as [|p r1 ps s1 Hr1 _ IH]; intros s2 H2.
  - by inversion H2.
  - inversion H2 as [|? r2 ? s2' Hr2 Hrest]; subst. f_equal; [|by apply IH].
    destruct Hr1 as (? & E1 & ? & ? & ? & ? & ?).
    destruct Hr2 as (? & E2 & ? & ? & ? & ? & ?).
    rewrite E1 in E2. injection E2 as ?.
    destruct r1, r2; simpl in *. congruence.
Qed.

(** X10.  Saving the same snapshot a second time succeeds and changes
    neither the answer of any query nor the metadata. *)
Theorem save_to_db_idempotent (data : snapshot) (db db1 : database) :
  save_to_db data db = Some db1 ->
  exists db2,
    save_to_db data db1 = Some db2
    /\ metadata db2 = metadata db1
    /\ forall reg rf rt countries team name_player,
         get_players db2 reg rf rt countries team name_player
         = get_players db1 reg rf rt countries team name_player.
Proof.
  intros H1.
  assert (is_Some (save_to_db data db1)) as [db2 H2].
  { apply save_to_db_Some, save_regions_Some.
    apply (save_regions_Some data REGIONS (players db)), save_to_db_Some.
    by eexists. }
  exists db2. split; [done|]. split.
  - unfold save_to_db in H1, H2.
    destruct (save_regions data REGIONS (players db)); [|done].
    destruct (save_regions data REGIONS (players db1)); [|done].
    injection H1 as <-. injection H2 as <-. cbn [metadata].
    apply map_eq. intros key.
    destruct (decide (key = "next_scheduled_post_time")) as [->|Hn].
    { by rewrite !lookup_insert_eq. }
    rewrite !(lookup_insert_ne _ "next_scheduled_post_time") by done.
    destruct (decide (key = "time_posted")) as [->|Ht].
    { by rewrite !lookup_insert_eq. }
    rewrite !(lookup_insert_ne _ "time_posted") by done.
    by rewrite !lookup_insert_ne by done.
  - intros reg rf rt countries team name_player.
    apply get_players_region_ext.
    apply save_to_db_players in H1, H2.
    destruct (decide (reg ∈ REGIONS)) as [Hin|Hout].
    + destruct (boards data !! reg) as [[|p ps]|] eqn:Hb.
      * apply (save_regions_untouched data REGIONS reg _ _); [|done].
        right. by rewrite Hb.
      * destruct (save_regions_same data REGIONS reg (p :: ps) _ _
                    REGIONS_NoDup Hin Hb ltac:(done) H1) as (s1 & <- & Hs1).
        destruct (save_regions_same data REGIONS reg (p :: ps) _ _
                    REGIONS_NoDup Hin Hb ltac:(done) H2) as (s2 & <- & Hs2).
        by eapply stored_as_functional.
      * apply (save_regions_untouched data REGIONS reg _ _); [|done].
        right. by rewrite Hb.
    + apply (save_regions_untouched data REGIONS reg _ _); [|done]. by left.
Qed.

Lemma save_to_db_idempotent_witness :
  exists db2,
    save_to_db sample_snapshot sample_db_saved = Some db2
    /\ metadata db2 = metadata sample_db_saved
    /\ forall reg rf rt countries team name_player,
         get_players db2 reg rf rt countries team name_player
         = get_players sample_db_saved reg rf rt countries team name_player.
Proof.
  apply (save_to_db_idempotent sample_snapshot sample_db sample_db_saved).
  reflexivity.
Defined.

(** ** More on the fetcher *)

(** X11.  The time stamps of a snapshot are never negative and are at least
    the time stamps of every reply of the cycle; the snapshot has no key
    outside [REGIONS]. *)
Theorem fetch_stamps_bounds (net : string -> response) (data : snapshot) :
  fetch_leaderboards net = Some data ->
  0 <= time_posted data
  /\ 0 <= next_scheduled_post_time data
  /\ Forall (fun reply =>
               posted reply <= time_posted data
               /\ next_post reply <= next_scheduled_post_time data)
            (replies net)
  /\ forall reg, reg ∉ REGIONS -> boards data !! reg = None.
Proof.
  intros Hf. destruct (fetch_some_stamps net data Hf) as (_ & -> & ->).
  destruct (foldl_max_bounds 0 (posted <$> replies net)) as (Hp & Hpa & _).
  destruct (foldl_max_bounds 0 (next_post <$> replies net)) as (Hn & Hna & _).
  split; [done|]. split; [done|]. split.
  - rewrite Forall_fmap in Hpa, Hna. rewrite Forall_forall in *.
    intros reply Hin. split; [by apply Hpa|by apply Hna].
  - intros reg Hout. rewrite (fetch_some_boards net data reg Hf).
    by rewrite bool_decide_eq_false_2.
Qed.

Lemma fetch_stamps_bounds_witness :
  0 <= time_posted sample_snapshot
  /\ 0 <= next_scheduled_post_time sample_snapshot
  /\ Forall (fun reply =>
               posted reply <= time_posted sample_snapshot
               /\ next_post reply <= next_scheduled_post_time sample_snapshot)
            (replies sample_net)
  /\ forall reg, reg ∉ REGIONS -> boards sample_snapshot !! reg = None.
Proof.
  apply (fetch_stamps_bounds sample_net sample_snapshot). reflexivity.
Defined.

(** X12.  The rank an entry arrives with is overwritten: two lists whose
    entries differ at most in that rank are ranked alike. *)
Theorem assign_ranks_overwrites (idx : Z) (l l' : list player) :
  Forall2 same_but_rank l l' -> assign_ranks idx l = assign_ranks idx l'.
Proof.
  intros H. revert idx. induction H as [|p q l l' Hpq _ IH]; intros idx.
  - done.
  - simpl. rewrite IH. f_equal. unfold set_rank.
    destruct Hpq as (-> & -> & -> & -> & ->). done.
Qed.

Lemma assign_ranks_overwrites_witness :
  assign_ranks 1 [sample_entry_ranked 7 "first"; sample_entry_ranked 7 "second"]
  = assign_ranks 1 [sample_entry "first"; sample_entry "second"].
Proof.
  apply (assign_ranks_overwrites 1). repeat constructor.
Defined.

(** ** More on the scheduler *)

Lemma scheduled_cycle_sleep net now db : 1 <= (scheduled_cycle net now db).2.
Proof.
  unfold scheduled_cycle. destruct (fetch_leaderboards net) as [data|]; [|done].
  destruct (save_to_db data db) as [db'|]; [|done].
  destruct (Z.gtb_spec (next_scheduled_post_time data) now); simpl; lia.
Qed.

Lemma scheduled_task_cons net now env db :
  scheduled_task ((net, now) :: env) db
  = ((scheduled_task env (scheduled_cycle net now db).1).1,
     (scheduled_cycle net now db).2
       :: (scheduled_task env (scheduled_cycle net now db).1).2).
Proof.
  cbn [scheduled_task]. destruct (scheduled_cycle net now db) as [db' s].
  cbn [fst snd]. by destruct (scheduled_task env db') as [db'' ss].
Qed.

(** X13.  However the requests turn out and whatever the clock shows, the
    loop sleeps once per cycle and never less than one second. *)
Theorem scheduler_never_spins
    (env : list ((string -> response) * Z)) (db : database) :
  length (scheduled_task env db).2 = length env
  /\ Forall (fun s => 1 <= s) (scheduled_task env db).2.
Proof.
  revert db. induction env as [|[net now] env IH]; intros db.
  { split; [done|constructor]. }
  rewrite scheduled_task_cons. cbn [fst snd length].
  destruct (IH (scheduled_cycle net now db).1) as [Hlen Hall].
  split; [by rewrite Hlen|]. constructor; [apply scheduled_cycle_sleep|done].
Qed.

(** X14.  When the request of every region fails, the cycle leaves the store
    as it was and sleeps 300 seconds. *)
Theorem scheduler_total_outage
    (net : string -> response) (now : Z) (db : database) :
  (forall reg, reg ∈ REGIONS -> net reg = Failed) ->
  scheduled_cycle net now db = (db, 300).
Proof.
  intros Hall. unfold scheduled_cycle.
  by rewrite (proj2 (fetch_none_iff net) Hall).
Qed.

Lemma scheduler_total_outage_witness :
  scheduled_cycle dead_net 4000 sample_db = (sample_db, 300).
Proof.
  apply (scheduler_total_outage dead_net 4000 sample_db). reflexivity.
Defined.




Lemma scheduled_cycle_unique net now db :
  unique_ranks (players db) ->
  unique_ranks (players (scheduled_cycle net now db).1).
Proof.
  intros Hu. unfold scheduled_cycle.
  destruct (fetch_leaderboards net) as [data|]; [|done].
  destruct (save_to_db data db) as [db'|] eqn:Hs; [|done].
  apply save_to_db_players in Hs.
  pose proof (save_regions_unique data REGIONS _ _ Hu Hs).
  by destruct (_ >? _).
Qed.

Lemma scheduled_cycle_metadata net now db :
  (forall key, key ≠ "time_posted" -> key ≠ "next_scheduled_post_time" ->
     metadata (scheduled_cycle net now db).1 !! key = metadata db !! key)
  /\ (is_Some (metadata db !! "time_posted") ->
      is_Some (metadata (scheduled_cycle net now db).1 !! "time_posted"))
  /\ (is_Some (metadata db !! "next_scheduled_post_time") ->
      is_Some (metadata (scheduled_cycle net now db).1
                 !! "next_scheduled_post_time")).
Proof.
  unfold scheduled_cycle.
  destruct (fetch_leaderboards net) as [data|]; [|done].
  destruct (save_to_db data db) as [db'|] eqn:Hs; [|done].
  destruct (save_to_db_metadata data db db' Hs) as [Htp Hnp].
  assert (forall key, key ≠ "time_posted" ->
            key ≠ "next_scheduled_post_time" ->
            metadata db' !! key = metadata db !! key) as Hother.
  { intros key Ht Hn. unfold save_to_db in Hs.
    destruct (save_regions _ _ _); [|done]. injection Hs as <-.
    cbn [metadata]. by rewrite !lookup_insert_ne. }
  destruct (_ >? _); cbn [fst]; rewrite Htp, Hnp; eauto.
Qed.

(** X16.  A run of the scheduler keeps the table free of two rows with the
    same region and rank. *)
Theorem scheduler_keeps_ranks_unique
    (env : list ((string -> response) * Z)) (db : database) :
  unique_ranks (players db) ->
  unique_ranks (players (scheduled_task env db).1).
Proof.
  revert db. induction env as [|[net now] env IH]; intros db Hu; [done|].
  rewrite scheduled_task_cons. cbn [fst].
  by apply IH, scheduled_cycle_unique.
Qed.

Lemma scheduler_keeps_ranks_unique_witness :
  unique_ranks
    (players (scheduled_task [(sample_net, 4000); (dead_net, 5000)]
                sample_db).1).
Proof.
  apply (scheduler_keeps_ranks_unique
           [(sample_net, 4000); (dead_net, 5000)] sample_db).
  apply (bool_decide_unpack (unique_ranks (players sample_db))).
  by vm_compute.
Defined.

(** X17.  A run of the scheduler writes no key of [metadata] other than
    [time_posted] and [next_scheduled_post_time], and a key of the two that
    is present stays present. *)
Theorem scheduler_metadata_keys
    (env : list ((string -> response) * Z)) (db : database) :
  (forall key, key ≠ "time_posted" -> key ≠ "next_scheduled_post_time" ->
     get_metadata (scheduled_task env db).1 !! key = get_metadata db !! key)
  /\ (is_Some (get_metadata db !! "time_posted") ->
      is_Some (get_metadata (scheduled_task env db).1 !! "time_posted"))
  /\ (is_Some (get_metadata db !! "next_scheduled_post_time") ->
      is_Some (get_metadata (scheduled_task env db).1
                 !! "next_scheduled_post_time")).
Proof.
  unfold get_metadata. revert db.
  induction env as [|[net now] env IH]; intros db; [done|].
  rewrite scheduled_task_cons. cbn [fst].
  destruct (IH (scheduled_cycle net now db).1) as (Ho & Ht & Hn).
  destruct (scheduled_cycle_metadata net now db) as (Ho' & Ht' & Hn').
  split; [|split].
  - intros key H1 H2. by rewrite Ho, Ho'.
  - intros H. by apply Ht, Ht'.
  - intros H. by apply Hn, Hn'.
Qed.

(** ** The request handler *)

Lemma split_commas_sep s t :
  comma_free s = true ->
  split_commas (s +:+ String "," t) = s :: split_commas t.
Proof.
  induction s as [|c s IH]; intros Hs; [done|].
  simpl in Hs. change (String c s +:+ String "," t)
    with (String c (s +:+ String "," t)).
  cbn [split_commas]. destruct (ascii_dec c ","); [done|].
  by rewrite IH.
Qed.

Lemma split_commas_plain s : comma_free s = true -> split_commas s = [s].
Proof.
  induction s as [|c s IH]; intros Hs; [done|].
  simpl in *. destruct (ascii_dec c ","); [done|]. by rewrite IH.
Qed.

Lemma split_commas_concat l :
  Forall (fun s => comma_free s = true) l -> l ≠ [] ->
  split_commas (join_commas l) = l.
Proof.
  induction 1 as [|s l Hs Hall IH]; [done|]. intros _.
  destruct l as [|t l].
  - change (join_commas [s]) with s. by apply split_commas_plain.
  - change (join_commas (s :: t :: l))
      with (s +:+ String "," (join_commas (t :: l))).
    rewrite split_commas_sep by done. f_equal. by apply IH.
Qed.

Lemma join_commas_empty l : join_commas l = "" -> l = [] \/ l = [""].
Proof.
  destruct l as [|s [|t l]]; [by left| |].
  - change (join_commas [s]) with s. intros ->. by right.
  - change (join_commas (s :: t :: l))
      with (s +:+ String "," (join_commas (t :: l))).
    by destruct s.
Qed.

Lemma selected_countries_of_concat l :
  l ≠ [] -> l ≠ [""] ->
  Forall (fun s => comma_free s = true) l ->
  selected_countries_of (Some (join_commas l)) = l.
Proof.
  intros Hne Hne' Hall. unfold selected_countries_of.
  destruct (join_commas l) as [|c s] eqn:E.
  - by destruct (join_commas_empty l E).
  - rewrite <- E. by apply split_commas_concat.
Qed.

(** X18.  The handler reads back a list of codes that was joined with
    commas: for a list that is not empty, is not the single empty string and
    whose members hold no comma, splitting the joined text gives the list. *)
Theorem selected_countries_round_trip (l : list string) :
  l ≠ [] -> l ≠ [""] ->
  Forall (fun s => comma_free s = true) l ->
  selected_countries_of (Some (join_commas l)) = l.
Proof. apply selected_countries_of_concat. Qed.

Lemma selected_countries_round_trip_witness :
  selected_countries_of (Some (join_commas ["US"; "SE"])) = ["US"; "SE"].
Proof.
  apply (selected_countries_round_trip ["US"; "SE"]).
  - discriminate.
  - discriminate.
  - repeat constructor.
Defined.

Section HandlerFacts.
Variable countries_by_alpha2 : string -> option string.

(** X19.  For a region of [REGIONS] and a [countries] parameter that joins
    upper-case codes with commas, the page shows exactly the rows the other
    filters keep whose stored code equals one of the codes up to case, and
    reports the codes as selected. *)
Theorem read_root_countries
    (db : database) (reg : string) (rf rt : option Z)
    (codes : list string) (team name_player : option string) :
  reg ∈ REGIONS ->
  codes ≠ [] -> codes ≠ [""] ->
  Forall (fun s => comma_free s = true) codes ->
  Forall (fun m => Text.sql_upper m = m) codes ->
  exists context,
    read_root countries_by_alpha2 db reg rf rt (Some (join_commas codes))
              team name_player
    = Page context
    /\ c_data context
       = List.filter (o_country_in_nocase codes)
           (get_players db reg rf rt None team name_player)
    /\ c_selected_countries context = codes.
Proof.
  intros Hin Hne Hne' Hfree Hup. unfold read_root.
  rewrite bool_decide_eq_true_2 by done.
  rewrite (selected_countries_of_concat codes Hne Hne' Hfree).
  eexists. split; [reflexivity|]. cbn [c_data c_selected_countries].
  split; [|done]. destruct codes as [|m ms]; [done|].
  apply get_players_refine. intros r. by apply satisfies_upper_members.
Qed.

End HandlerFacts.

Lemma read_root_countries_witness :
  exists context,
    read_root sample_names sample_codes_db "europe" None None
              (Some (join_commas ["US"; "SE"])) None None
    = Page context
    /\ c_data context
       = List.filter (o_country_in_nocase ["US"; "SE"])
           (get_players sample_codes_db "europe" None None None None None)
    /\ c_selected_countries context = ["US"; "SE"].
Proof.
  apply (read_root_countries sample_names sample_codes_db "europe" None None
           ["US"; "SE"] None None).
  - apply europe_in_REGIONS.
  - discriminate.
  - discriminate.
  - repeat constructor.
  - repeat constructor.
Defined.

(** ** The country index and the query *)

Lemma get_countries_keys (table : string -> option string) db reg :
  (get_countries table db reg).*1 ≡ₚ select_codes db reg.
Proof.
  unfold get_countries. rewrite (sort_by_perm by_name).
  rewrite <- list_fmap_compose. by rewrite list_fmap_id.
Qed.

(** X20.  Every code the country index of a region offers selects at least
    one row when it is sent back alone as the [countries] filter, and the
    rows it selects carry that code up to case. *)
Theorem index_code_selects_rows
    (table : string -> option string) (db : database) (reg code : string) :
  In code (get_countries table db reg).*1 ->
  get_players db reg None None (Some [code]) None None ≠ []
  /\ Forall (fun o => Text.sql_upper <$> o_country o = Some code)
       (get_players db reg None None (Some [code]) None None).
Proof.
  intros Hcode. apply list_elem_of_In in Hcode.
  rewrite get_countries_keys in Hcode.
  apply list_elem_of_In, select_codes_In in Hcode
    as (r & c & Hr & Hreg & Hc & ->).
  assert (forall r', satisfies
            (where_clauses reg None None (Some [Text.sql_upper c]) None None) r'
          = true
          <-> region r' = reg
              /\ Text.sql_upper <$> country r' = Some (Text.sql_upper c))
    as Hsat.
  { intros r'. unfold satisfies, where_clauses. cbn.
    unfold country_clause, sql_in.
    destruct (String.eqb_spec (region r') reg) as [Hreg'|Hreg']; cbn.
    - destruct (country r') as [c'|]; cbn.
      + destruct (String.eqb_spec (Text.sql_upper c') (Text.sql_upper c))
          as [E|E]; cbn; split; try done.
        * by rewrite E.
        * intros [_ [= ?]]. done.
      + split; [done|]. by intros [_ ?].
    - split; [done|]. by intros [? _]. }
  split.
  - intros Hnil.
    assert (select_cols r
            ∈ get_players db reg None None (Some [Text.sql_upper c]) None None)
      as Hin; [|rewrite Hnil in Hin; by apply elem_of_nil in Hin].
    unfold get_players. apply list_elem_of_fmap. exists r. split; [done|].
    rewrite (sort_by_perm rank_le). apply list_elem_of_In, filter_In.
    split; [done|]. apply Hsat. by rewrite Hc.
  - apply Forall_forall. intros o Ho. unfold get_players in Ho.
    apply list_elem_of_fmap in Ho as (r' & -> & Hr').
    rewrite (sort_by_perm rank_le) in Hr'.
    apply list_elem_of_In, filter_In in Hr' as [_ Hr'].
    apply Hsat in Hr' as [_ Hr']. done.
Qed.

Lemma index_code_selects_rows_witness :
  get_players sample_codes_db "europe" None None (Some ["US"]) None None ≠ []
  /\ Forall (fun o => Text.sql_upper <$> o_country o = Some "US")
       (get_players sample_codes_db "europe" None None (Some ["US"])
          None None).
Proof.
  apply (index_code_selects_rows sample_names sample_codes_db "europe" "US").
  right. left. reflexivity.
Defined.
